(** * Resume-Matcher builder forms: GenericListForm and PersonalInfoForm

  A shallow embedding of
  [apps/frontend/components/builder/forms/generic-list-form.tsx]
  (the list editor) and of the personal-information editor that follows it
  in the same source file, with the properties their specification states.

  Conventions.
  - A JavaScript string is a [string]: a sequence of code units.  The only
    code unit the code inspects is the line feed (['\n'], code 10).
  - A value that may be [undefined] or [null] is a [nullable].
  - JavaScript objects live in a heap of property maps ([gmap string value])
    addressed by references, so that "a new object" and "the old object is
    not mutated" are statements about the heap.
  - Event handlers are computations in a small state monad over the
    [world]: the heap, the component's React state, the file input the
    ref points to, the reads in flight and the log of [onChange] calls. *)

From Stdlib Require Import Ascii String.
From stdpp Require Import gmap strings list fin_maps.

(** ** Platform built-ins used by the source *)

Module JS.

(** The line feed, the single code unit of the separator ['\n']. *)
Definition LF : ascii := "010"%char.

(** A value that may be absent: [undefined], [null], or a proper value. *)
Inductive nullable (A : Type) : Type :=
| Undefined
| Null
| Value (a : A).
Arguments Undefined {A}.
Arguments Null {A}.
Arguments Value {A} a.

(** The text of the separator ['\n']. *)
Definition nl : string := String LF EmptyString.

(** The number of occurrences of a code unit in a string. *)
Fixpoint occurrences (c : ascii) (s : string) : nat :=
  match s with
  | EmptyString => 0
  | String d s' => (if decide (d = c) then 1 else 0) + occurrences c s'
  end.

(** [contains c s]: the code unit [c] occurs in [s]. *)
Fixpoint contains (c : ascii) (s : string) : bool :=
  match s with
  | EmptyString => false
  | String d s' => if decide (d = c) then true else contains c s'
  end.

(** The scan of [String.prototype.split] for a separator of one code unit:
    [cur] is the segment being read, from the last separator to the current
    position.  Each separator closes the segment and opens an empty one; the
    end of the string closes the last segment. *)
Fixpoint split_from (sep : ascii) (cur s : string) : list string :=
  match s with
  | EmptyString => [cur]
  | String c s' =>
      if decide (c = sep) then cur :: split_from sep EmptyString s'
      else split_from sep (cur +:+ String c EmptyString) s'
  end.

(** [s.split(sep)] for a separator of one code unit. *)
Definition split (sep : ascii) (s : string) : list string :=
  split_from sep EmptyString s.

(** [a.join(sep)]: the elements in order, [sep] between two neighbours,
    the empty string for the empty array. *)
Fixpoint join (sep : string) (a : list string) : string :=
  match a with
  | [] => EmptyString
  | x :: rest =>
      match rest with
      | [] => x
      | _ :: _ => x +:+ sep +:+ join sep rest
      end
  end.

(** [a?.m()]: [undefined] when [a] is [undefined] or [null]. *)
Definition optional_chain {A B : Type} (a : nullable A) (m : A -> B) : option B :=
  match a with
  | Value x => Some (m x)
  | Undefined | Null => None
  end.

(** Truthiness of a string: every string but the empty one. *)
Definition truthy (s : string) : bool :=
  match s with
  | EmptyString => false
  | String _ _ => true
  end.

(** [x || d] for [x] a string or [undefined]. *)
Definition or_else (x : option string) (d : string) : string :=
  match x with
  | Some s => if truthy s then s else d
  | None => d
  end.

End JS.

(** ** GenericListForm *)

Module GenericListForm.
Import JS.

Section Handlers.
(** The parent owns some state [P]; [onChange] is its update callback. *)
Context {P : Type} (onChange : list string -> P -> P).

(** [const handleChange = (value) => { onChange(value.split('\n')); }] *)
Definition handleChange (value : string) : P -> P :=
  onChange (split LF value).
End Handlers.

(** [const textValue = items?.join('\n') || '';] *)
Definition textValue (items : nullable (list string)) : string :=
  or_else (optional_chain items (join nl)) EmptyString.

(** The two directions of the synchronisation, under the specification's
    names: [toText] is what the text area shows for an array, [fromText] is
    the array the change handler derives from the text. *)
Definition toText (items : list string) : string := textValue (Value items).
Definition fromText (value : string) : list string := split LF value.

(** A parent that only records the arrays it is called with, oldest first. *)
Definition record_call (items : list string) (log : list (list string)) :
  list (list string) := log ++ [items].

End GenericListForm.

(** ** PersonalInfoForm *)

Module PersonalInfoForm.
Import JS.

(** What a property of the record, the preview state or [reader.result] holds
    at run time: a string or [null].  (An absent property is [undefined].) *)
Inductive value : Type :=
| VNull
| VStr (s : string).

#[global] Instance value_eq_dec : EqDecision value.
Proof. solve_decision. Defined.

(** Truthiness: [null] and the empty string are falsy. *)
Definition truthy_value (v : value) : bool :=
  match v with
  | VNull => false
  | VStr s => truthy s
  end.

(** Modelled from the spec: the declaration of the type [PersonalInfo]
    (imported from [@/components/dashboard/resume-component]) is not part of
    the source file; [keyof PersonalInfo] is taken to be the eleven named
    optional text fields of the specification's data model, which are also
    exactly the keys the form passes to [handleChange]. *)
Inductive Field : Type :=
| name | title | email | phone | location | gender | age
| website | linkedin | github | avatar.

#[global] Instance Field_eq_dec : EqDecision Field.
Proof. solve_decision. Defined.

(** The property key a field is stored under. *)
Definition key (f : Field) : string :=
  match f with
  | name => "name"
  | title => "title"
  | email => "email"
  | phone => "phone"
  | location => "location"
  | gender => "gender"
  | age => "age"
  | website => "website"
  | linkedin => "linkedin"
  | github => "github"
  | avatar => "avatar"
  end.

(** Objects are property maps, the heap maps references to objects. *)
Abbreviation obj := (gmap string value).
Abbreviation loc := positive.

(** A file the user picked; its content is read by the platform only. *)
Record File : Type := { file_name : string; file_type : string }.

(** The hidden [<input type="file">] the ref points to once mounted. *)
Record HTMLInputElement : Type := { input_value : string }.

(** A [FileReader] whose read was started: the file, and the [data] prop
    captured by the [onloadend] closure installed on it. *)
Record FileReader : Type := { reader_file : File; closure_data : loc }.

(** How the platform ends a read.  The [loadend] event is dispatched in both
    cases; [reader.result] is the data URL after a successful read and [null]
    after a failed one. *)
Inductive read_outcome : Type :=
| ReadDone (dataURL : string)
| ReadFailed.

Definition reader_result (o : read_outcome) : value :=
  match o with
  | ReadDone dataURL => VStr dataURL
  | ReadFailed => VNull
  end.

Record world : Type := {
  heap : gmap loc obj;                    (* every object allocated so far *)
  avatarPreview : value;                  (* useState<string | null> *)
  fileInputRef : option HTMLInputElement; (* fileInputRef.current *)
  pending : list FileReader;              (* reads in flight, oldest first *)
  onChange_calls : list loc               (* arguments of onChange, oldest first *)
}.

(** *** The handler monad *)

Definition M (A : Type) : Type := world -> A * world.

Definition ret {A : Type} (a : A) : M A := fun w => (a, w).

Definition bind {A B : Type} (m : M A) (k : A -> M B) : M B :=
  fun w => let '(a, w') := m w in k a w'.

Notation "x <- m ;; k" := (bind m (fun x => k))
  (at level 100, m at next level, right associativity).
Notation "m ;; k" := (bind m (fun _ => k))
  (at level 100, right associativity).

(** The world after running a handler. *)
Definition exec {A : Type} (m : M A) (w : world) : world := snd (m w).

(** [setAvatarPreview(v)] *)
Definition setAvatarPreview (v : value) : M unit := fun w =>
  (tt, {| heap := heap w; avatarPreview := v; fileInputRef := fileInputRef w;
          pending := pending w; onChange_calls := onChange_calls w |}).

(** The own properties [...r] copies out of the object at [r]. *)
Definition spread (h : gmap loc obj) (r : loc) : obj := default ∅ (h !! r).

Definition read_props (r : loc) : M obj := fun w => (spread (heap w) r, w).

(** An object literal: a new object at a reference not in use. *)
Definition new_object (o : obj) : M loc := fun w =>
  let r := fresh (dom (heap w)) in
  (r, {| heap := <[r := o]> (heap w); avatarPreview := avatarPreview w;
         fileInputRef := fileInputRef w; pending := pending w;
         onChange_calls := onChange_calls w |}).

(** The [onChange] prop: the parent's callback, here recording its argument. *)
Definition onChange (r : loc) : M unit := fun w =>
  (tt, {| heap := heap w; avatarPreview := avatarPreview w;
          fileInputRef := fileInputRef w; pending := pending w;
          onChange_calls := onChange_calls w ++ [r] |}).

(** [reader.readAsDataURL(file)]: the read is in flight. *)
Definition readAsDataURL (rd : FileReader) : M unit := fun w =>
  (tt, {| heap := heap w; avatarPreview := avatarPreview w;
          fileInputRef := fileInputRef w; pending := pending w ++ [rd];
          onChange_calls := onChange_calls w |}).

(** *** The component *)

(** [useState<string | null>(data.avatar || null)] *)
Definition initialAvatarPreview (o : obj) : value :=
  match o !! key avatar with
  | Some v => if truthy_value v then v else VNull
  | None => VNull
  end.

(** [const handleChange = (field, value) => { onChange({ ...data, [field]: value }); }]
    At run time [value] is whatever the caller passes, a string or [null]. *)
Definition handleChange (data : loc) (field : Field) (v : value) : M unit :=
  props <- read_props data ;;
  r <- new_object (<[key field := v]> props) ;;
  onChange r.

(** [reader.onloadend = () => { const base64 = reader.result as string;
       setAvatarPreview(base64); handleChange('avatar', base64); }] *)
Definition onloadend (data : loc) (result : value) : M unit :=
  let base64 := result in
  setAvatarPreview base64 ;;
  handleChange data avatar base64.

(** [const handleAvatarUpload = (e) => { const file = e.target.files?.[0];
       if (file) { const reader = new FileReader(); reader.onloadend = ...;
                   reader.readAsDataURL(file); } }] *)
Definition handleAvatarUpload (data : loc) (files : nullable (list File)) : M unit :=
  match optional_chain files head with
  | Some (Some file) =>
      readAsDataURL {| reader_file := file; closure_data := data |}
  | Some None | None => ret tt
  end.

(** [if (fileInputRef.current) { fileInputRef.current.value = ''; }] *)
Definition reset_file_input : M unit := fun w =>
  match fileInputRef w with
  | Some _ =>
      (tt, {| heap := heap w; avatarPreview := avatarPreview w;
              fileInputRef := Some {| input_value := "" |};
              pending := pending w; onChange_calls := onChange_calls w |})
  | None => (tt, w)
  end.

(** [const handleRemoveAvatar = () => { setAvatarPreview(null);
       handleChange('avatar', ''); if (fileInputRef.current) ... }] *)
Definition handleRemoveAvatar (data : loc) : M unit :=
  setAvatarPreview VNull ;;
  handleChange data avatar (VStr "") ;;
  reset_file_input.

(** The platform ends the [i]-th read in flight with outcome [o]: the reader
    leaves the list and its [onloadend] closure runs on [reader.result]. *)
Definition loadend (i : nat) (o : read_outcome) : M unit := fun w =>
  match pending w !! i with
  | Some rd =>
      onloadend (closure_data rd) (reader_result o)
        {| heap := heap w; avatarPreview := avatarPreview w;
           fileInputRef := fileInputRef w; pending := delete i (pending w);
           onChange_calls := onChange_calls w |}
  | None => (tt, w)
  end.

(** The world right after the form is mounted on the record at [data]:
    the file input is attached and empty, nothing is in flight. *)
Definition mount (h : gmap loc obj) (data : loc) : world :=
  {| heap := h; avatarPreview := initialAvatarPreview (spread h data);
     fileInputRef := Some {| input_value := "" |};
     pending := []; onChange_calls := [] |}.

(** The record the parent was last called with. *)
Definition last_call (w : world) : option obj :=
  r ← last (onChange_calls w); heap w !! r.

(** *** Scenarios *)

(** The record of the specification's field-edit scenario. *)
Definition record_ab : obj :=
  {[ "name" := VStr ""; "email" := VStr "a@b.com" ]}.

(** A heap holding that record at reference 1, and the form mounted on it. *)
Definition heap_ab : gmap loc obj := {[ 1%positive := record_ab ]}.
Definition world_ab : world := mount heap_ab 1%positive.

Definition png : File := {| file_name := "a.png"; file_type := "image/png" |}.
Definition jpg : File := {| file_name := "b.jpg"; file_type := "image/jpeg" |}.
Definition png_url : string := "data:image/png;base64,iVBORw0KGgo=".

(** The user picks [a.png]: one read is in flight. *)
Definition selecting : world :=
  exec (handleAvatarUpload 1%positive (Value [png])) world_ab.

(** The user picks [a.png] and the read fails. *)
Definition failed_read : world :=
  exec (handleAvatarUpload 1%positive (Value [png]) ;;
        loadend 0 ReadFailed) world_ab.

(** The user picks [a.png], then [b.jpg] while the first read is in flight;
    the first read succeeds ([loaded_then_pending]), then the second fails. *)
Definition loaded_then_pending : world :=
  exec (handleAvatarUpload 1%positive (Value [png]) ;;
        handleAvatarUpload 1%positive (Value [jpg]) ;;
        loadend 0 (ReadDone png_url)) world_ab.
Definition loaded_then_failed : world :=
  exec (loadend 0 ReadFailed) loaded_then_pending.

(** *** Rendering *)

(** The text a field's input shows: [value={data.name || ''}], and likewise
    for the other text fields. *)
Definition field_text (o : obj) (f : Field) : string :=
  match o !! key f with
  | Some (VStr s) => if truthy s then s else ""
  | Some VNull | None => ""
  end.

(** The fields the form renders a text input for, in document order. *)
Definition text_fields : list Field :=
  [name; title; email; phone; location; gender; age; website; linkedin; github].

(** What an [<Input id=... value=... />] is rendered with. *)
Record InputProps : Type := { input_id : string; input_text : string }.

Definition text_input (o : obj) (f : Field) : InputProps :=
  {| input_id := key f; input_text := field_text o f |}.

Definition text_inputs (o : obj) : list InputProps := text_input o <$> text_fields.

(** The avatar area: [avatarPreview ? (image with the remove button)
    : (upload button)]. *)
Inductive avatar_view : Type :=
| Image (src : string)
| UploadButton.

Definition avatar_area (preview : value) : avatar_view :=
  match preview with
  | VStr s => if truthy s then Image s else UploadButton
  | VNull => UploadButton
  end.

(** *** Events *)

(** What can happen to a mounted form.  [data] is the prop of the render the
    handler belongs to; the parent chooses it.
    - [InputChange]: [onChange={(e) => handleChange('name', e.target.value)}]
      of a text input;
    - [FileChange]: [onChange={handleAvatarUpload}] of the file input, with
      [e.target.files]; the platform has put the selection in the input
      before the handler runs;
    - [RemoveClick]: [onClick={handleRemoveAvatar}];
    - [UploadClick]: [onClick={() => fileInputRef.current?.click()}], which
      only opens the platform's picker;
    - [LoadEnd]: the platform ends a read in flight. *)
Inductive event : Type :=
| InputChange (data : loc) (field : Field) (text : string)
| FileChange (data : loc) (files : nullable (list File))
| RemoveClick (data : loc)
| UploadClick
| LoadEnd (i : nat) (o : read_outcome).

(** The value the platform gives a file input for a selection: the fake path
    of the first selected file, the empty string when there is none. *)
Definition backslash : string := String "092"%char EmptyString.

Definition fakepath (file : File) : string :=
  "C:" +:+ backslash +:+ "fakepath" +:+ backslash +:+ file_name file.

Definition selection_value (files : nullable (list File)) : string :=
  match optional_chain files head with
  | Some (Some file) => fakepath file
  | Some None | None => ""
  end.

(** What the platform has done by the time the change event of the file
    input is handled: the input, which is the element the ref points to,
    holds the value of the selection. *)
Definition platform_selects (files : nullable (list File)) : M unit := fun w =>
  match fileInputRef w with
  | Some _ =>
      (tt, {| heap := heap w; avatarPreview := avatarPreview w;
              fileInputRef := Some {| input_value := selection_value files |};
              pending := pending w; onChange_calls := onChange_calls w |})
  | None => (tt, w)
  end.

Definition dispatch (ev : event) : M unit :=
  match ev with
  | InputChange data field text => handleChange data field (VStr text)
  | FileChange data files =>
      platform_selects files ;; handleAvatarUpload data files
  | RemoveClick data => handleRemoveAvatar data
  | UploadClick => ret tt
  | LoadEnd i o => loadend i o
  end.

(** Events are handled one at a time, each to completion. *)
Fixpoint run (evs : list event) : M unit :=
  match evs with
  | [] => ret tt
  | ev :: rest => dispatch ev ;; run rest
  end.

Definition is_loadend (ev : event) : bool :=
  match ev with LoadEnd _ _ => true | _ => false end.

Definition is_remove (ev : event) : bool :=
  match ev with RemoveClick _ => true | _ => false end.

(** Picking: the two events of the file-selection control. *)
Definition is_picking (ev : event) : bool :=
  match ev with FileChange _ _ | UploadClick => true | _ => false end.

Definition is_file_change (ev : event) : bool :=
  match ev with FileChange _ _ => true | _ => false end.

(** The reads a sequence of picks starts, in order. *)
Definition started_reads (evs : list event) : list FileReader :=
  evs ≫= λ ev,
    match ev with
    | FileChange data (Value (file :: _)) =>
        [{| reader_file := file; closure_data := data |}]
    | _ => []
    end.

(** The user picks [a.png], then [b.jpg]: two reads are in flight. *)
Definition two_reads_in_flight : world :=
  exec (run [FileChange 1%positive (Value [png]);
             FileChange 1%positive (Value [jpg])]) world_ab.

End PersonalInfoForm.

(** * Properties of the list editor *)

Module GenericListFormSpec.
Import JS GenericListForm.

(** *** Concatenation *)

Lemma append_cons c (s t : string) : String c s +:+ t = String c (s +:+ t).
Proof. reflexivity. Qed.

Lemma append_nil_l (s : string) : "" +:+ s = s.
Proof. reflexivity. Qed.

Lemma append_nil_r (s : string) : s +:+ "" = s.
Proof. induction s as [|c s IH]; [done|]. by rewrite append_cons, IH. Qed.

Lemma append_assoc (s t u : string) : (s +:+ t) +:+ u = s +:+ t +:+ u.
Proof. induction s as [|c s IH]; [done|]. by rewrite !append_cons, IH. Qed.

(** *** The scan *)

Lemma split_from_nil sep cur : split_from sep cur "" = [cur].
Proof. reflexivity. Qed.

Lemma split_from_sep sep cur s :
  split_from sep cur (String sep s) = cur :: split_from sep "" s.
Proof. simpl. by rewrite decide_True. Qed.

Lemma split_from_other sep cur c s :
  c ≠ sep → split_from sep cur (String c s) = split_from sep (cur +:+ String c "") s.
Proof. intros Hc. simpl. by rewrite decide_False. Qed.

(** A run of code units without separator only extends the open segment. *)
Lemma split_from_app sep cur x s :
  contains sep x = false →
  split_from sep cur (x +:+ s) = split_from sep (cur +:+ x) s.
Proof.
  revert cur. induction x as [|c x IH]; intros cur Hx.
  - by rewrite append_nil_l, append_nil_r.
  - simpl in Hx. destruct (decide (c = sep)) as [|Hc]; [done|].
    rewrite append_cons, split_from_other by done.
    rewrite IH by done. by rewrite append_assoc, append_cons, append_nil_l.
Qed.

Lemma split_from_nonempty sep cur s : split_from sep cur s ≠ [].
Proof.
  revert cur. induction s as [|c s IH]; intros cur; [done|].
  simpl. destruct (decide (c = sep)); [done | apply IH].
Qed.

(** One segment per separator, and one more. *)
Lemma length_split_from sep cur s :
  length (split_from sep cur s) = S (occurrences sep s).
Proof.
  revert cur. induction s as [|c s IH]; intros cur; [done|].
  simpl. destruct (decide (c = sep)); simpl; by rewrite IH.
Qed.

(** No segment holds a separator, provided the open one does not. *)
Lemma split_from_segments sep cur s :
  contains sep cur = false →
  Forall (λ x, contains sep x = false) (split_from sep cur s).
Proof.
  revert cur. induction s as [|c s IH]; intros cur Hcur.
  - by constructor.
  - simpl. destruct (decide (c = sep)) as [|Hc].
    + constructor; [done | by apply IH].
    + apply IH. clear IH. induction cur as [|d cur IHc]; simpl in *.
      * by rewrite decide_False.
      * destruct (decide (d = sep)); [done | by apply IHc].
Qed.

(** *** Joining *)

Lemma join_cons sep x (l : list string) :
  l ≠ [] → join sep (x :: l) = x +:+ sep +:+ join sep l.
Proof. by destruct l. Qed.

Lemma join_split_from sep cur s :
  join (String sep "") (split_from sep cur s) = cur +:+ s.
Proof.
  revert cur. induction s as [|c s IH]; intros cur.
  - by rewrite split_from_nil, append_nil_r.
  - destruct (decide (c = sep)) as [->|Hc].
    + rewrite split_from_sep, join_cons by apply split_from_nonempty.
      by rewrite IH.
    + rewrite split_from_other by done.
      by rewrite IH, append_assoc.
Qed.

Lemma split_join sep (l : list string) :
  l ≠ [] → Forall (λ x, contains sep x = false) l →
  split sep (join (String sep "") l) = l.
Proof.
  intros Hl Hall. unfold split.
  induction Hall as [|x l Hx Hall IH]; [done|].
  destruct l as [|y l].
  - simpl. rewrite <- (append_nil_r x) at 1.
    by rewrite split_from_app, append_nil_l.
  - rewrite join_cons by done.
    rewrite split_from_app, append_nil_l, append_cons, split_from_sep by done.
    by rewrite append_nil_l, IH.
Qed.

(** The fallback [|| ''] never changes the text of an array. *)
Lemma toText_join (items : list string) : toText items = join nl items.
Proof.
  unfold toText, textValue, optional_chain, or_else.
  by destruct (join nl items).
Qed.

(** *** Scenarios of the specification *)

Example split_scenario :
  fromText ("Python" +:+ nl +:+ "Go") = ["Python"; "Go"].
Proof. reflexivity. Qed.

Example join_scenario :
  toText ["Python"; "Go"; "Rust"] = "Python" +:+ nl +:+ "Go" +:+ nl +:+ "Rust".
Proof. reflexivity. Qed.

Example split_trailing_separator : fromText ("a" +:+ nl) = ["a"; ""].
Proof. reflexivity. Qed.

Example split_only_separators : fromText (nl +:+ nl) = [""; ""; ""].
Proof. reflexivity. Qed.

Example edit_scenario :
  handleChange record_call ("Python" +:+ nl +:+ "Go") [] = [["Python"; "Go"]].
Proof. reflexivity. Qed.

(** *** The claims *)

(** C1 (as stated, refuted): the empty array has no element with a line
    break, yet it does not survive the round trip: its text is the empty
    string, which splits into one empty segment. *)
Lemma fromText_toText_empty_array :
  Forall (λ s, contains LF s = false) [] ∧ fromText (toText []) ≠ [].
Proof. split; [constructor | discriminate]. Qed.

(** C1 (amended): for every non-empty sequence of strings [S] none of which
    contains a line break, [fromText (toText S) = S]. *)
Theorem fromText_toText (S : list string) :
  S ≠ [] → Forall (λ s, contains LF s = false) S → fromText (toText S) = S.
Proof.
  intros HS Hall. rewrite toText_join. unfold fromText, nl.
  by apply split_join.
Qed.

Lemma fromText_toText_witness :
  ["Python"; ""; "Go"] ≠ [] ∧
  Forall (λ s, contains LF s = false) ["Python"; ""; "Go"] ∧
  fromText (toText ["Python"; ""; "Go"]) = ["Python"; ""; "Go"].
Proof.
  assert (Hne : ["Python"; ""; "Go"] ≠ []) by discriminate.
  assert (Hall : Forall (λ s, contains LF s = false) ["Python"; ""; "Go"])
    by (repeat constructor).
  exact (conj Hne (conj Hall (fromText_toText _ Hne Hall))).
Defined.

(** C4: [toText] of the empty sequence is the empty string, [fromText] of the
    empty string is the one-element sequence holding the empty string; so the
    empty sequence is not what its own text splits into. *)
Theorem empty_case_asymmetry :
  toText [] = "" ∧ fromText "" = [""] ∧ fromText (toText []) ≠ [].
Proof. repeat split; discriminate. Qed.

(** C7: for every entered value there is one array [items] such that,
    whatever the parent and its callback, the change handler applies the
    callback once, to [items], and does nothing else (a parent that records
    its calls gets exactly one new entry, [items]); and [items] is the split
    of the value on line breaks, complete and unfiltered: it is not empty, no
    item holds a line break, the items joined by line breaks are the value
    again, there is one item more than the value has line breaks, and it is
    the only array with the first three of these properties. *)
Theorem handleChange_calls_onChange_once (value : string) :
  ∃ items : list string,
    (∀ (P : Type) (onChange : list string → P → P) (p : P),
        handleChange onChange value p = onChange items p) ∧
    (∀ log : list (list string),
        handleChange record_call value log = log ++ [items]) ∧
    items ≠ [] ∧
    Forall (λ s, contains LF s = false) items ∧
    join nl items = value ∧
    length items = S (occurrences LF value) ∧
    (∀ l : list string,
        l ≠ [] → Forall (λ s, contains LF s = false) l → join nl l = value →
        l = items).
Proof.
  exists (split LF value).
  split; [reflexivity|]. split; [reflexivity|].
  split; [apply split_from_nonempty|].
  split; [apply split_from_segments; reflexivity|].
  split; [apply (join_split_from LF "" value)|].
  split; [apply length_split_from|].
  intros l Hl Hall Hjoin. rewrite <- Hjoin. symmetry. by apply split_join.
Qed.

(** C8: for every text [t], the empty one included, [fromText t] has at least
    one segment: one more than there are line breaks in [t]. *)
Theorem fromText_nonempty (t : string) :
  fromText t ≠ [] ∧ length (fromText t) = S (occurrences LF t).
Proof.
  split; [apply split_from_nonempty | apply length_split_from].
Qed.

(** C9: for every text [t], [toText (fromText t) = t]: splitting on line
    breaks and joining again, fallback included, gives back the text. *)
Theorem toText_fromText (t : string) : toText (fromText t) = t.
Proof.
  rewrite toText_join. unfold fromText, split, nl.
  by rewrite join_split_from.
Qed.

(** C10: when the [items] prop is [undefined] or [null], the text shown is
    the empty string. *)
Theorem textValue_absent_items :
  textValue Undefined = "" ∧ textValue Null = "".
Proof. split; reflexivity. Qed.

End GenericListFormSpec.

(** * Properties of the personal-information editor *)

Module PersonalInfoFormSpec.
Import JS PersonalInfoForm.

(** *** What each handler does to the world *)

Lemma fresh_not_allocated (h : gmap loc obj) : h !! fresh (dom h) = None.
Proof. apply not_elem_of_dom, is_fresh. Qed.

Lemma fresh_neq_allocated (h : gmap loc obj) (r : loc) (o : obj) :
  h !! r = Some o → fresh (dom h) ≠ r.
Proof. intros Hr Heq. rewrite <- Heq, fresh_not_allocated in Hr. done. Qed.

Lemma exec_handleChange w data field v :
  exec (handleChange data field v) w =
  {| heap := <[fresh (dom (heap w)) := <[key field := v]> (spread (heap w) data)]> (heap w);
     avatarPreview := avatarPreview w;
     fileInputRef := fileInputRef w;
     pending := pending w;
     onChange_calls := onChange_calls w ++ [fresh (dom (heap w))] |}.
Proof. reflexivity. Qed.

Lemma exec_onloadend w data result :
  exec (onloadend data result) w =
  {| heap := <[fresh (dom (heap w)) := <[key avatar := result]> (spread (heap w) data)]> (heap w);
     avatarPreview := result;
     fileInputRef := fileInputRef w;
     pending := pending w;
     onChange_calls := onChange_calls w ++ [fresh (dom (heap w))] |}.
Proof. reflexivity. Qed.

Lemma exec_loadend w i rd o :
  pending w !! i = Some rd →
  exec (loadend i o) w =
  exec (onloadend (closure_data rd) (reader_result o))
    {| heap := heap w; avatarPreview := avatarPreview w;
       fileInputRef := fileInputRef w; pending := delete i (pending w);
       onChange_calls := onChange_calls w |}.
Proof. intros Hi. unfold exec, loadend. by rewrite Hi. Qed.

Lemma exec_handleAvatarUpload_file w data file rest :
  exec (handleAvatarUpload data (Value (file :: rest))) w =
  {| heap := heap w; avatarPreview := avatarPreview w;
     fileInputRef := fileInputRef w;
     pending := pending w ++ [{| reader_file := file; closure_data := data |}];
     onChange_calls := onChange_calls w |}.
Proof. reflexivity. Qed.

(** With no file to read, the upload handler leaves the world as it is:
    [files] is [null], or the list is empty. *)
Lemma handleAvatarUpload_no_file w data :
  exec (handleAvatarUpload data Null) w = w ∧
  exec (handleAvatarUpload data Undefined) w = w ∧
  exec (handleAvatarUpload data (Value [])) w = w.
Proof. repeat split. Qed.

(** The upload handler itself never touches the preview, the heap or the
    callback: it can only put a read in flight. *)
Lemma handleAvatarUpload_frame w data files :
  let w' := exec (handleAvatarUpload data files) w in
  heap w' = heap w ∧ avatarPreview w' = avatarPreview w ∧
  fileInputRef w' = fileInputRef w ∧ onChange_calls w' = onChange_calls w.
Proof. destruct files as [| |[|file rest]]; repeat split. Qed.

(** The end of a read, whatever its outcome, runs the closure: the preview
    becomes [reader.result] and the callback receives a new record whose
    avatar is [reader.result]. *)
Lemma loadend_transitions w i rd o :
  pending w !! i = Some rd →
  let w' := exec (loadend i o) w in
  avatarPreview w' = reader_result o ∧
  ∃ r R', onChange_calls w' = onChange_calls w ++ [r] ∧
          heap w !! r = None ∧ heap w' !! r = Some R' ∧
          R' !! key avatar = Some (reader_result o).
Proof.
  intros Hi w'. subst w'. rewrite (exec_loadend _ _ _ _ Hi), exec_onloadend. simpl.
  split; [done|]. eexists _, _. split; [done|].
  split; [apply fresh_not_allocated|].
  split; [apply lookup_insert_eq | apply lookup_insert_eq].
Qed.

(** The keys of distinct fields are distinct. *)
Lemma key_inj : Inj (=) (=) key.
Proof. intros f g Hfg. destruct f, g; (done || discriminate). Qed.

(** *** The claims *)

(** C2: for every record [R] (the object at [data]), field [F] and string
    [V], [handleChange F V] calls the update callback once, with a new object
    that holds [V] at [F] and agrees with [R] on every other property; [R]
    itself, and every other object allocated before, is as it was. *)
Theorem handleChange_replaces_one_field w data (R : obj) (F : Field) (V : string) :
  heap w !! data = Some R →
  let w' := exec (handleChange data F (VStr V)) w in
  (∃ r R', onChange_calls w' = onChange_calls w ++ [r] ∧
           r ≠ data ∧ heap w' !! r = Some R' ∧
           R' !! key F = Some (VStr V) ∧
           (∀ k, k ≠ key F → R' !! k = R !! k) ∧
           (∀ G, G ≠ F → R' !! key G = R !! key G)) ∧
  heap w' !! data = Some R ∧
  (∀ l o, heap w !! l = Some o → heap w' !! l = Some o).
Proof.
  intros HR w'. subst w'. rewrite exec_handleChange. simpl.
  assert (Hspread : spread (heap w) data = R) by (unfold spread; by rewrite HR).
  assert (Hframe : ∀ l o, heap w !! l = Some o →
            <[fresh (dom (heap w)) := <[key F := VStr V]> (spread (heap w) data)]>
              (heap w) !! l = Some o).
  { intros l o Hl. rewrite lookup_insert_ne; [done|].
    by apply (fresh_neq_allocated _ _ o). }
  split; [|split; [by apply Hframe | exact Hframe]].
  eexists _, _. split; [done|].
  split; [by apply (fresh_neq_allocated _ _ R)|].
  split; [apply lookup_insert_eq|]. rewrite Hspread.
  split; [apply lookup_insert_eq|].
  split.
  - intros k Hk. by rewrite lookup_insert_ne.
  - intros G HG. rewrite lookup_insert_ne; [done|].
    intros Hk. apply HG. symmetry. by apply key_inj.
Qed.

Lemma handleChange_replaces_one_field_witness :
  heap world_ab !! 1%positive = Some record_ab ∧
  heap (exec (handleChange 1%positive name (VStr "Ann")) world_ab) !! 1%positive
    = Some record_ab.
Proof.
  assert (H : heap world_ab !! 1%positive = Some record_ab) by reflexivity.
  exact (conj H
    (proj1 (proj2 (handleChange_replaces_one_field world_ab 1%positive record_ab
                     name "Ann" H)))).
Defined.

(** The field-edit scenario of the specification: editing the name of
    [{name: "", email: "a@b.com"}] to ["Ann"]. *)
Example edit_name_scenario :
  last_call (exec (handleChange 1%positive name (VStr "Ann")) world_ab)
  = Some {[ "name" := VStr "Ann"; "email" := VStr "a@b.com" ]}.
Proof. vm_compute. reflexivity. Qed.

(** C3 (the code departs from it): the form is mounted on
    [{name: "", email: "a@b.com"}] with no avatar, the user picks a file and
    the read fails.  The [onloadend] closure runs all the same, on
    [reader.result = null]: the update callback is called, with a new record
    whose avatar is [null] where the current record has none.  When an
    earlier read has already loaded a preview, the failure of a later one
    also resets the preview to [null]. *)
Theorem failed_read_is_a_transition :
  (avatarPreview world_ab = VNull ∧
   onChange_calls world_ab = [] ∧
   record_ab !! key avatar = None ∧
   onChange_calls failed_read = [2%positive] ∧
   last_call failed_read = Some (<[key avatar := VNull]> record_ab)) ∧
  (avatarPreview loaded_then_pending = VStr png_url ∧
   last_call loaded_then_pending = Some (<[key avatar := VStr png_url]> record_ab) ∧
   avatarPreview loaded_then_failed = VNull ∧
   last_call loaded_then_failed = Some (<[key avatar := VNull]> record_ab)).
Proof. vm_compute. repeat split. Qed.

(** C5: when a read in flight ends with a result, the preview and the avatar
    of the record handed to the update callback are the same string, the
    data URL the platform produced. *)
Theorem loaded_preview_equals_avatar w i rd (dataURL : string) :
  pending w !! i = Some rd →
  let w' := exec (loadend i (ReadDone dataURL)) w in
  avatarPreview w' = VStr dataURL ∧
  ∃ r R', onChange_calls w' = onChange_calls w ++ [r] ∧
          heap w' !! r = Some R' ∧
          R' !! key avatar = Some (VStr dataURL) ∧
          R' !! key avatar = Some (avatarPreview w').
Proof.
  intros Hi w'.
  destruct (loadend_transitions w i rd (ReadDone dataURL) Hi)
    as (Hprev & r & R' & Hcalls & _ & Hr & Hav).
  fold w' in Hprev, Hcalls, Hr. simpl in Hprev, Hav.
  split; [done|]. exists r, R'. by rewrite Hprev.
Qed.

Lemma loaded_preview_equals_avatar_witness :
  pending selecting !! 0 = Some {| reader_file := png; closure_data := 1%positive |} ∧
  avatarPreview (exec (loadend 0 (ReadDone png_url)) selecting) = VStr png_url.
Proof.
  assert (H : pending selecting !! 0
              = Some {| reader_file := png; closure_data := 1%positive |})
    by reflexivity.
  exact (conj H (proj1 (loaded_preview_equals_avatar selecting 0 _ png_url H))).
Defined.

(** The upload scenario of the specification: after the read, preview and
    record avatar are the same non-empty data URL; after clearing, the
    preview is [null] and the record avatar is the empty string. *)
Example upload_then_clear_scenario :
  let loaded := exec (loadend 0 (ReadDone png_url)) selecting in
  let cleared := exec (handleRemoveAvatar 2%positive) loaded in
  avatarPreview loaded = VStr png_url ∧
  last_call loaded = Some (<[key avatar := VStr png_url]> record_ab) ∧
  avatarPreview cleared = VNull ∧
  last_call cleared = Some (<[key avatar := VStr ""]> record_ab).
Proof. vm_compute. repeat split. Qed.

(** C6: from any world, with [R] the current record, clearing the avatar
    sets the preview to [null], calls the update callback once with a new
    record whose avatar is the empty string and whose other properties are
    those of [R], and leaves the file input the ref points to with an empty
    value. *)
Theorem handleRemoveAvatar_clears w data (R : obj) :
  heap w !! data = Some R →
  let w' := exec (handleRemoveAvatar data) w in
  avatarPreview w' = VNull ∧
  (∃ r R', onChange_calls w' = onChange_calls w ++ [r] ∧
           heap w' !! r = Some R' ∧
           R' !! key avatar = Some (VStr "") ∧
           (∀ k, k ≠ key avatar → R' !! k = R !! k)) ∧
  (∀ el, fileInputRef w = Some el →
         fileInputRef w' = Some {| input_value := "" |}) ∧
  (fileInputRef w = None → fileInputRef w' = None).
Proof.
  intros HR w'.
  assert (Hspread : spread (heap w) data = R) by (unfold spread; by rewrite HR).
  assert (Hw' : w' =
    {| heap := <[fresh (dom (heap w)) := <[key avatar := VStr ""]> R]> (heap w);
       avatarPreview := VNull;
       fileInputRef := match fileInputRef w with
                       | Some _ => Some {| input_value := "" |}
                       | None => None
                       end;
       pending := pending w;
       onChange_calls := onChange_calls w ++ [fresh (dom (heap w))] |}).
  { subst w'. rewrite <- Hspread.
    unfold handleRemoveAvatar, exec, bind, reset_file_input. simpl.
    by destruct (fileInputRef w). }
  rewrite Hw'. simpl. split; [done|]. split.
  - eexists _, _. split; [done|]. split; [apply lookup_insert_eq|].
    split; [apply lookup_insert_eq|].
    intros k Hk. by rewrite lookup_insert_ne.
  - split; [intros el Hel | intros Hnone].
    + by rewrite Hel.
    + by rewrite Hnone.
Qed.

Lemma handleRemoveAvatar_clears_witness :
  heap world_ab !! 1%positive = Some record_ab ∧
  avatarPreview (exec (handleRemoveAvatar 1%positive) world_ab) = VNull.
Proof.
  assert (H : heap world_ab !! 1%positive = Some record_ab) by reflexivity.
  exact (conj H (proj1 (handleRemoveAvatar_clears world_ab 1%positive record_ab H))).
Defined.

End PersonalInfoFormSpec.

(** * Further properties of the list editor *)

Module GenericListFormMore.
Import JS GenericListForm GenericListFormSpec.

Lemma contains_nil sep : contains sep "" = false.
Proof. reflexivity. Qed.

(** A separator closes the scan of what precedes it and starts a new scan. *)
Lemma split_from_app_sep sep cur a b :
  split_from sep cur (a +:+ String sep b)
  = split_from sep cur a ++ split_from sep "" b.
Proof.
  revert cur. induction a as [|c a IH]; intros cur.
  - by rewrite append_nil_l, split_from_sep, split_from_nil.
  - rewrite append_cons. destruct (decide (c = sep)) as [->|Hc].
    + by rewrite !split_from_sep, IH.
    + by rewrite !split_from_other, IH.
Qed.

Lemma join_app sep (l1 l2 : list string) :
  l1 ≠ [] → l2 ≠ [] →
  join sep (l1 ++ l2) = join sep l1 +:+ sep +:+ join sep l2.
Proof.
  intros H1 H2. induction l1 as [|x l1 IH]; [done|].
  destruct l1 as [|y l1].
  - simpl app. by rewrite join_cons.
  - change ((x :: y :: l1) ++ l2) with (x :: ((y :: l1) ++ l2)).
    rewrite !join_cons by done. rewrite IH by done.
    by rewrite !append_assoc.
Qed.

(** X1: no item handed to the update callback contains a line break. *)
Theorem fromText_items_have_no_line_break (t : string) :
  Forall (λ s, contains LF s = false) (fromText t).
Proof. apply split_from_segments, contains_nil. Qed.

(** X2: a non-empty array survives the round trip through the text area
    exactly when none of its items contains a line break. *)
Theorem round_trip_iff_no_line_break (S : list string) :
  S ≠ [] →
  fromText (toText S) = S ↔ Forall (λ s, contains LF s = false) S.
Proof.
  intros HS. split.
  - intros Heq. rewrite <- Heq. apply split_from_segments, contains_nil.
  - intros Hall. rewrite toText_join. by apply split_join.
Qed.

Lemma round_trip_iff_no_line_break_witness :
  ["a" +:+ nl +:+ "b"; "c"] ≠ [] ∧
  fromText (toText ["a" +:+ nl +:+ "b"; "c"]) ≠ ["a" +:+ nl +:+ "b"; "c"].
Proof.
  assert (Hne : ["a" +:+ nl +:+ "b"; "c"] ≠ []) by discriminate.
  split; [exact Hne|].
  intros Heq.
  pose proof (proj1 (round_trip_iff_no_line_break _ Hne) Heq) as Hall.
  apply Forall_cons in Hall as [Hhd _]. discriminate Hhd.
Defined.

(** X3: the array of two texts put on consecutive lines is the array of the
    first followed by the array of the second; so a line break typed at the
    end appends one empty item. *)
Theorem fromText_lines (a b : string) :
  fromText (a +:+ nl +:+ b) = fromText a ++ fromText b ∧
  fromText (a +:+ nl) = fromText a ++ [""].
Proof.
  unfold fromText, split, nl. split.
  - rewrite append_cons, append_nil_l. apply split_from_app_sep.
  - by rewrite split_from_app_sep.
Qed.

(** X4: the text of two non-empty arrays put end to end is the text of the
    first, a line break, and the text of the second. *)
Theorem toText_app (l1 l2 : list string) :
  l1 ≠ [] → l2 ≠ [] →
  toText (l1 ++ l2) = toText l1 +:+ nl +:+ toText l2.
Proof. intros H1 H2. rewrite !toText_join. by apply join_app. Qed.

Lemma toText_app_witness :
  ["Python"] ≠ [] ∧ (["Go"; "Rust"] : list string) ≠ [] ∧
  toText (["Python"] ++ ["Go"; "Rust"])
  = toText ["Python"] +:+ nl +:+ toText ["Go"; "Rust"].
Proof.
  assert (H1 : ["Python"] ≠ []) by discriminate.
  assert (H2 : (["Go"; "Rust"] : list string) ≠ []) by discriminate.
  exact (conj H1 (conj H2 (toText_app _ _ H1 H2))).
Defined.

(** X5: two texts that the change handler turns into the same array are the
    same text: the array loses nothing of what was typed. *)
Theorem fromText_inj (t1 t2 : string) : fromText t1 = fromText t2 → t1 = t2.
Proof.
  intros Heq.
  rewrite <- (append_nil_l t1), <- (append_nil_l t2).
  rewrite <- (join_split_from LF "" t1), <- (join_split_from LF "" t2).
  unfold fromText, split in Heq. by rewrite Heq.
Qed.

Lemma fromText_inj_witness :
  fromText ("Go" +:+ nl) = fromText ("Go" +:+ nl) ∧ "Go" +:+ nl = "Go" +:+ nl.
Proof.
  assert (H : fromText ("Go" +:+ nl) = fromText ("Go" +:+ nl)) by reflexivity.
  exact (conj H (fromText_inj _ _ H)).
Defined.

End GenericListFormMore.

(** * Further properties of the personal-information editor *)

Module PersonalInfoFormMore.
Import JS PersonalInfoForm PersonalInfoFormSpec.

(** *** Running handlers in sequence *)

Lemma exec_seq {A : Type} (m : M A) (k : M unit) w :
  exec (m ;; k) w = exec k (exec m w).
Proof. unfold exec, bind. by destruct (m w). Qed.

Lemma exec_run_nil w : exec (run []) w = w.
Proof. reflexivity. Qed.

Lemma exec_run_cons ev evs w :
  exec (run (ev :: evs)) w = exec (run evs) (exec (dispatch ev) w).
Proof. apply exec_seq. Qed.

Lemma exec_run_app evs1 evs2 w :
  exec (run (evs1 ++ evs2)) w = exec (run evs2) (exec (run evs1) w).
Proof.
  revert w. induction evs1 as [|ev evs1 IH]; intros w; [done|].
  simpl app. by rewrite !exec_run_cons, IH.
Qed.

Lemma exec_handleRemoveAvatar w data :
  exec (handleRemoveAvatar data) w =
  {| heap := <[fresh (dom (heap w)) := <[key avatar := VStr ""]> (spread (heap w) data)]> (heap w);
     avatarPreview := VNull;
     fileInputRef := match fileInputRef w with
                     | Some _ => Some {| input_value := "" |}
                     | None => None
                     end;
     pending := pending w;
     onChange_calls := onChange_calls w ++ [fresh (dom (heap w))] |}.
Proof.
  unfold handleRemoveAvatar, exec, bind, reset_file_input. simpl.
  by destruct (fileInputRef w).
Qed.

Lemma exec_loadend_none w i o :
  pending w !! i = None → exec (loadend i o) w = w.
Proof. intros Hi. unfold exec, loadend. by rewrite Hi. Qed.

Lemma exec_loadend_some w i rd o :
  pending w !! i = Some rd →
  exec (loadend i o) w =
  {| heap := <[fresh (dom (heap w)) :=
                 <[key avatar := reader_result o]> (spread (heap w) (closure_data rd))]>
               (heap w);
     avatarPreview := reader_result o;
     fileInputRef := fileInputRef w;
     pending := delete i (pending w);
     onChange_calls := onChange_calls w ++ [fresh (dom (heap w))] |}.
Proof. intros Hi. by rewrite (exec_loadend _ _ _ _ Hi), exec_onloadend. Qed.

Lemma exec_handleAvatarUpload_none w data files :
  optional_chain files head = None ∨ optional_chain files head = Some None →
  exec (handleAvatarUpload data files) w = w.
Proof. intros [H|H]; unfold handleAvatarUpload; by rewrite H. Qed.

(** The change event of the file input: the input holds the selection and,
    when there is a first file, one more read is in flight. *)
Lemma exec_FileChange w d files :
  exec (dispatch (FileChange d files)) w =
  {| heap := heap w;
     avatarPreview := avatarPreview w;
     fileInputRef := match fileInputRef w with
                     | Some _ => Some {| input_value := selection_value files |}
                     | None => None
                     end;
     pending := pending w ++ started_reads [FileChange d files];
     onChange_calls := onChange_calls w |}.
Proof.
  destruct w as [h v [el|] p c]; destruct files as [| |[|file rest]];
    cbn; by rewrite ?app_nil_r.
Qed.

(** Case analysis on what an event does to the world [w]. *)
Ltac dispatch_cases ev w :=
  let d := fresh "d" in
  let i := fresh "i" in
  let o := fresh "o" in
  let Hi := fresh "Hi" in
  destruct ev as [d ? ?|d [| |[|? ?]]|d| |i o];
  [ cbn [dispatch]; rewrite exec_handleChange
  | rewrite exec_FileChange
  | rewrite exec_FileChange
  | rewrite exec_FileChange
  | rewrite exec_FileChange
  | cbn [dispatch]; rewrite exec_handleRemoveAvatar
  | change (exec (dispatch UploadClick) w) with w
  | cbn [dispatch]; destruct (pending w !! i) eqn:Hi;
    [ rewrite (exec_loadend_some _ _ _ _ Hi)
    | rewrite (exec_loadend_none _ _ _ Hi) ] ].

(** An event either leaves the heap and the log of calls alone, or allocates
    one object and hands it to the callback. *)
Lemma dispatch_heap_calls ev w :
  (heap (exec (dispatch ev) w) = heap w ∧
   onChange_calls (exec (dispatch ev) w) = onChange_calls w) ∨
  (∃ o, heap (exec (dispatch ev) w) = <[fresh (dom (heap w)) := o]> (heap w) ∧
        onChange_calls (exec (dispatch ev) w)
        = onChange_calls w ++ [fresh (dom (heap w))]).
Proof.
  dispatch_cases ev w; simpl; first [by left | right; by eexists].
Qed.

(** What a run of events does to the heap and to the log of calls. *)
Lemma run_heap_calls evs w :
  ∃ new,
    onChange_calls (exec (run evs) w) = onChange_calls w ++ new ∧
    length new ≤ length evs ∧
    NoDup new ∧
    (∀ r, r ∈ new → heap w !! r = None ∧ is_Some (heap (exec (run evs) w) !! r)) ∧
    (∀ l o, heap w !! l = Some o → heap (exec (run evs) w) !! l = Some o).
Proof.
  revert w. induction evs as [|ev evs IH]; intros w.
  - exists []. rewrite exec_run_nil, app_nil_r.
    split; [done|]. split; [done|]. split; [constructor|].
    split; [intros r Hr; by apply elem_of_nil in Hr | done].
  - rewrite exec_run_cons.
    destruct (IH (exec (dispatch ev) w)) as (new & Hcalls & Hlen & Hnd & Hnew & Hmono).
    destruct (dispatch_heap_calls ev w) as [[Hh Hc]|(o & Hh & Hc)].
    + exists new. rewrite Hcalls, Hc. rewrite Hh in Hnew, Hmono.
      split; [done|]. split; [simpl; lia|]. done.
    + set (r0 := fresh (dom (heap w))) in *.
      assert (Hr0 : heap w !! r0 = None) by apply fresh_not_allocated.
      assert (Hstep : ∀ l o', heap w !! l = Some o' →
                heap (exec (dispatch ev) w) !! l = Some o').
      { intros l o' Hl. rewrite Hh, lookup_insert_ne; [done|].
        intros ->. by rewrite Hr0 in Hl. }
      exists (r0 :: new). rewrite Hcalls, Hc, <- app_assoc.
      split; [done|]. split; [simpl; lia|]. split; [|split].
      * constructor; [|done]. intros Hin. apply Hnew in Hin as [Hnone _].
        by rewrite Hh, lookup_insert_eq in Hnone.
      * intros r Hr. apply elem_of_cons in Hr as [->|Hr].
        -- split; [done|]. exists o. apply Hmono. by rewrite Hh, lookup_insert_eq.
        -- apply Hnew in Hr as [Hnone Hsome]. split; [|done].
           destruct (heap w !! r) as [o'|] eqn:Hl; [|done].
           by rewrite (Hstep _ _ Hl) in Hnone.
      * intros l o' Hl. by apply Hmono, Hstep.
Qed.

(** What a run without completions does to the reads in flight. *)
Lemma run_pending evs w :
  Forall (λ ev, is_loadend ev = false) evs →
  pending (exec (run evs) w) = pending w ++ started_reads evs.
Proof.
  intros Hevs. revert w. induction Hevs as [|ev evs Hev _ IH]; intros w.
  - by rewrite exec_run_nil, app_nil_r.
  - rewrite exec_run_cons, IH. clear IH.
    dispatch_cases ev w; simpl; rewrite ?app_nil_r, <- ?app_assoc; done.
Qed.

(** The record the callback was last called with, after an allocation. *)
Lemma last_call_alloc (h : gmap loc obj) (r : loc) (o : obj) v f p calls :
  last_call {| heap := <[r := o]> h; avatarPreview := v; fileInputRef := f;
               pending := p; onChange_calls := calls ++ [r] |} = Some o.
Proof. unfold last_call. simpl. rewrite last_snoc. simpl. apply lookup_insert_eq. Qed.

Lemma spread_lookup (h : gmap loc obj) (r : loc) (o : obj) :
  h !! r = Some o → spread h r = o.
Proof. intros Hr. unfold spread. by rewrite Hr. Qed.

Lemma initialAvatarPreview_insert (o : obj) (v : value) :
  avatar_area (initialAvatarPreview (<[key avatar := v]> o)) = avatar_area v.
Proof.
  unfold initialAvatarPreview. rewrite lookup_insert_eq.
  by destruct v as [|[|c s]].
Qed.

Lemma field_text_insert_eq (o : obj) (f : Field) (text : string) :
  field_text (<[key f := VStr text]> o) f = text.
Proof. unfold field_text. rewrite lookup_insert_eq. by destruct text. Qed.

Lemma field_text_insert_ne (o : obj) (f g : Field) (v : value) :
  g ≠ f → field_text (<[key f := v]> o) g = field_text o g.
Proof.
  intros Hne. unfold field_text. rewrite lookup_insert_ne; [done|].
  intros Hk. apply Hne. symmetry. by apply key_inj.
Qed.

(** *** Further properties *)

(** X6: no event ever mutates an object: through any sequence of events,
    every object of the heap, the props record included, stays as it was. *)
Theorem events_never_mutate evs w (l : loc) (o : obj) :
  heap w !! l = Some o → heap (exec (run evs) w) !! l = Some o.
Proof.
  intros Hl. destruct (run_heap_calls evs w) as (new & _ & _ & _ & _ & Hmono).
  by apply Hmono.
Qed.

Lemma events_never_mutate_witness :
  heap world_ab !! 1%positive = Some record_ab ∧
  heap (exec (run [InputChange 1%positive name "Ann";
                   FileChange 1%positive (Value [png]);
                   LoadEnd 0 (ReadDone png_url);
                   RemoveClick 1%positive]) world_ab) !! 1%positive
  = Some record_ab.
Proof.
  assert (H : heap world_ab !! 1%positive = Some record_ab) by reflexivity.
  exact (conj H (events_never_mutate _ world_ab _ _ H)).
Defined.

(** X7: how often one event calls the update callback: a text edit and a
    click on the remove button exactly once, the end of a read once when that
    read is in flight, a pick or a click on the upload button never. *)
Theorem calls_per_event ev w :
  length (onChange_calls (exec (dispatch ev) w))
  = length (onChange_calls w)
    + match ev with
      | InputChange _ _ _ | RemoveClick _ => 1
      | LoadEnd i _ => match pending w !! i with Some _ => 1 | None => 0 end
      | FileChange _ _ | UploadClick => 0
      end.
Proof.
  dispatch_cases ev w; simpl; rewrite ?length_app; simpl; lia.
Qed.

(** X8: through any sequence of events the log of calls only grows, by at
    most one call per event, and every reference handed to the callback is a
    new object: allocated during the run, not in the heap before it, and
    handed over only once. *)
Theorem callback_receives_new_objects evs w :
  ∃ new,
    onChange_calls (exec (run evs) w) = onChange_calls w ++ new ∧
    length new ≤ length evs ∧
    NoDup new ∧
    ∀ r, r ∈ new → heap w !! r = None ∧ is_Some (heap (exec (run evs) w) !! r).
Proof.
  destruct (run_heap_calls evs w) as (new & Hc & Hlen & Hnd & Hnew & _).
  by exists new.
Qed.

(** X9: the record handed over when a read ends is built from the props
    captured when the file was picked.  Whatever is typed, picked or removed
    while the read is in flight, the callback gets the record of that time
    with only the avatar replaced, so edits adopted in between are not in it. *)
Theorem completion_uses_captured_record w d (R : obj) file rest evs o :
  heap w !! d = Some R →
  Forall (λ ev, is_loadend ev = false) evs →
  let w1 := exec (dispatch (FileChange d (Value (file :: rest)))) w in
  let w2 := exec (run evs) w1 in
  let w3 := exec (dispatch (LoadEnd (length (pending w)) o)) w2 in
  avatarPreview w3 = reader_result o ∧
  last_call w3 = Some (<[key avatar := reader_result o]> R).
Proof.
  intros HR Hevs w1 w2 w3.
  assert (Hp : pending w2 !! length (pending w)
               = Some {| reader_file := file; closure_data := d |}).
  { subst w2 w1. rewrite run_pending by done.
    rewrite exec_FileChange. simpl.
    rewrite <- app_assoc. by apply list_lookup_middle. }
  assert (Hd : heap w2 !! d = Some R).
  { subst w2. destruct (run_heap_calls evs w1) as (? & _ & _ & _ & _ & Hmono).
    apply Hmono. subst w1. by rewrite exec_FileChange. }
  subst w3. cbn [dispatch]. rewrite (exec_loadend_some _ _ _ _ Hp).
  split; [done|]. rewrite last_call_alloc. simpl.
  by rewrite (spread_lookup _ _ _ Hd).
Qed.

Lemma completion_uses_captured_record_witness :
  heap world_ab !! 1%positive = Some record_ab ∧
  Forall (λ ev, is_loadend ev = false) [InputChange 1%positive name "Ann"] ∧
  last_call
    (exec (run [FileChange 1%positive (Value [png]);
                InputChange 1%positive name "Ann";
                LoadEnd 0 (ReadDone png_url)]) world_ab)
  = Some (<[key avatar := VStr png_url]> record_ab).
Proof.
  assert (H : heap world_ab !! 1%positive = Some record_ab) by reflexivity.
  assert (Hevs : Forall (λ ev, is_loadend ev = false)
                   [InputChange 1%positive name "Ann"])
    by (repeat constructor).
  exact (conj H (conj Hevs
    (proj2 (completion_uses_captured_record world_ab 1%positive record_ab
              png [] _ (ReadDone png_url) H Hevs)))).
Defined.

(** X10: of two reads in flight, the one that ends last decides: whichever
    order the platform ends them in, the preview and the avatar of the record
    last handed over are the result of the later one. *)
Theorem last_completion_wins w rd1 rd2 rest o1 o2 :
  pending w = rd1 :: rd2 :: rest →
  let first_then_second := exec (run [LoadEnd 0 o1; LoadEnd 0 o2]) w in
  let second_then_first := exec (run [LoadEnd 1 o2; LoadEnd 0 o1]) w in
  (avatarPreview first_then_second = reader_result o2 ∧
   ∃ R', last_call first_then_second = Some R' ∧
         R' !! key avatar = Some (reader_result o2)) ∧
  (avatarPreview second_then_first = reader_result o1 ∧
   ∃ R', last_call second_then_first = Some R' ∧
         R' !! key avatar = Some (reader_result o1)) ∧
  pending first_then_second = rest ∧ pending second_then_first = rest.
Proof.
  intros Hp a b. subst a b. rewrite !exec_run_cons, !exec_run_nil. cbn [dispatch].
  assert (H0 : pending w !! 0 = Some rd1) by (by rewrite Hp).
  assert (H1 : pending w !! 1 = Some rd2) by (by rewrite Hp).
  rewrite (exec_loadend_some _ _ _ _ H0), (exec_loadend_some _ _ _ _ H1).
  rewrite Hp. simpl delete.
  erewrite !exec_loadend_some by (simpl; reflexivity).
  rewrite !last_call_alloc. simpl.
  split; [|split; [|done]].
  - split; [done|]. eexists. split; [done|]. apply lookup_insert_eq.
  - split; [done|]. eexists. split; [done|]. apply lookup_insert_eq.
Qed.

Lemma last_completion_wins_witness :
  pending two_reads_in_flight
  = [{| reader_file := png; closure_data := 1%positive |};
     {| reader_file := jpg; closure_data := 1%positive |}] ∧
  avatarPreview (exec (run [LoadEnd 1 ReadFailed; LoadEnd 0 (ReadDone png_url)])
                   two_reads_in_flight)
  = VStr png_url.
Proof.
  assert (H : pending two_reads_in_flight
              = [{| reader_file := png; closure_data := 1%positive |};
                 {| reader_file := jpg; closure_data := 1%positive |}])
    by reflexivity.
  exact (conj H
    (proj1 (proj1 (proj2
      (last_completion_wins two_reads_in_flight _ _ [] (ReadDone png_url)
         ReadFailed H))))).
Defined.

(** X11: a text edit shows in the form.  The record handed to the callback,
    rendered, has the typed text in the edited field's input, whatever the
    text, and every other input as the current record renders it. *)
Theorem edited_input_shows_typed_text w d (R : obj) (F : Field) (text : string) :
  heap w !! d = Some R →
  ∃ R', last_call (exec (dispatch (InputChange d F text)) w) = Some R' ∧
        field_text R' F = text ∧
        (∀ G, G ≠ F → field_text R' G = field_text R G) ∧
        text_inputs R'
        = (λ p, if decide (input_id p = key F)
                then {| input_id := key F; input_text := text |} else p)
          <$> text_inputs R.
Proof.
  intros HR. cbn [dispatch]. rewrite exec_handleChange, last_call_alloc.
  rewrite (spread_lookup _ _ _ HR). eexists. split; [done|].
  split; [apply field_text_insert_eq|].
  split; [intros G HG; by apply field_text_insert_ne|].
  unfold text_inputs. rewrite <- list_fmap_compose.
  apply list_fmap_ext. intros _ G _. unfold compose, text_input. simpl.
  destruct (decide (key G = key F)) as [Hk|Hk].
  - apply key_inj in Hk as ->. by rewrite field_text_insert_eq.
  - rewrite field_text_insert_ne; [done|]. by intros ->.
Qed.

Lemma edited_input_shows_typed_text_witness :
  heap world_ab !! 1%positive = Some record_ab ∧
  ∃ R', last_call (exec (dispatch (InputChange 1%positive email "")) world_ab)
        = Some R' ∧ field_text R' email = "".
Proof.
  assert (H : heap world_ab !! 1%positive = Some record_ab) by reflexivity.
  split; [exact H|].
  destruct (edited_input_shows_typed_text world_ab 1%positive record_ab email "" H)
    as (R' & Hcall & Htext & _).
  exists R'. exact (conj Hcall Htext).
Defined.

(** X12: the preview and the record agree on what the avatar area shows.
    After a click on the remove button, and after the end of a read in flight
    whatever its outcome, a form mounted afresh on the record just handed to
    the callback shows the same avatar area as the current preview does. *)
Theorem preview_agrees_with_record w :
  (∀ d, let w' := exec (dispatch (RemoveClick d)) w in
        ∃ R', last_call w' = Some R' ∧
              avatar_area (initialAvatarPreview R') = avatar_area (avatarPreview w') ∧
              avatar_area (avatarPreview w') = UploadButton) ∧
  (∀ i rd o, pending w !! i = Some rd →
        let w' := exec (dispatch (LoadEnd i o)) w in
        ∃ R', last_call w' = Some R' ∧
              avatar_area (initialAvatarPreview R') = avatar_area (avatarPreview w')).
Proof.
  split.
  - intros d w'. subst w'. cbn [dispatch].
    rewrite exec_handleRemoveAvatar, last_call_alloc. eexists. split; [done|].
    by rewrite initialAvatarPreview_insert.
  - intros i rd o Hi w'. subst w'. cbn [dispatch].
    rewrite (exec_loadend_some _ _ _ _ Hi), last_call_alloc.
    eexists. split; [done|]. by rewrite initialAvatarPreview_insert.
Qed.

Lemma preview_agrees_with_record_witness :
  pending selecting !! 0 = Some {| reader_file := png; closure_data := 1%positive |} ∧
  ∃ R', last_call (exec (dispatch (LoadEnd 0 ReadFailed)) selecting) = Some R' ∧
        avatar_area (initialAvatarPreview R')
        = avatar_area (avatarPreview (exec (dispatch (LoadEnd 0 ReadFailed)) selecting)).
Proof.
  assert (H : pending selecting !! 0
              = Some {| reader_file := png; closure_data := 1%positive |})
    by reflexivity.
  exact (conj H (proj2 (preview_agrees_with_record selecting) 0 _ ReadFailed H)).
Defined.

(** X13: what touches the avatar state.  Only the end of a read and the
    remove button change the preview: through any sequence of text edits,
    picks and upload clicks it is as it was.  Only a pick and the remove
    button change the file input: through any sequence of text edits, upload
    clicks and ends of reads it is as it was. *)
Theorem edits_and_picks_keep_preview evs w :
  (Forall (λ ev, is_loadend ev = false ∧ is_remove ev = false) evs →
   avatarPreview (exec (run evs) w) = avatarPreview w) ∧
  (Forall (λ ev, is_file_change ev = false ∧ is_remove ev = false) evs →
   fileInputRef (exec (run evs) w) = fileInputRef w).
Proof.
  split; intros Hevs; revert w;
    induction Hevs as [|ev evs [H1 H2] _ IH]; intros w;
    try (by rewrite exec_run_nil);
    rewrite exec_run_cons, IH; clear IH;
    dispatch_cases ev w; done.
Qed.

Lemma edits_and_picks_keep_preview_witness :
  Forall (λ ev, is_loadend ev = false ∧ is_remove ev = false)
    [InputChange 1%positive name "Ann"; UploadClick;
     FileChange 1%positive (Value [png])] ∧
  avatarPreview (exec (run [InputChange 1%positive name "Ann"; UploadClick;
                            FileChange 1%positive (Value [png])]) world_ab)
  = avatarPreview world_ab ∧
  Forall (λ ev, is_file_change ev = false ∧ is_remove ev = false)
    [InputChange 1%positive name "Ann"; LoadEnd 0 ReadFailed] ∧
  fileInputRef (exec (run [InputChange 1%positive name "Ann"; LoadEnd 0 ReadFailed])
                  selecting)
  = fileInputRef selecting.
Proof.
  assert (H : Forall (λ ev, is_loadend ev = false ∧ is_remove ev = false)
                [InputChange 1%positive name "Ann"; UploadClick;
                 FileChange 1%positive (Value [png])])
    by (repeat constructor).
  assert (H' : Forall (λ ev, is_file_change ev = false ∧ is_remove ev = false)
                 [InputChange 1%positive name "Ann"; LoadEnd 0 ReadFailed])
    by (repeat constructor).
  exact (conj H (conj (proj1 (edits_and_picks_keep_preview _ world_ab) H)
          (conj H' (proj2 (edits_and_picks_keep_preview _ selecting) H')))).
Defined.

(** X14: at mount the preview is the record's avatar when that is a
    non-empty string, and [null] otherwise (absent, [null] or empty); in
    particular it is never the empty string. *)
Theorem mount_preview (h : gmap loc obj) (d : loc) (s : string) :
  avatarPreview (mount h d) = VStr s
  ↔ spread h d !! key avatar = Some (VStr s) ∧ s ≠ "".
Proof.
  unfold mount, initialAvatarPreview. cbn [avatarPreview].
  destruct (spread h d !! key avatar) as [[|[|c u]]|]; simpl.
  - split; [discriminate | intros [? _]; discriminate].
  - split; [discriminate | intros [H1 H2]; by inversion H1; subst].
  - split; [intros H; by inversion H | intros [H1 _]; by inversion H1].
  - split; [discriminate | intros [? _]; discriminate].
Qed.

(** X15: edits of two different fields compose.  When the second edit is
    made on the record the first one handed over, the callback gets the
    record with both fields set, the same in either order; when it is made on
    the old props, the first edit is not in the record. *)
Theorem edits_of_two_fields w d (R : obj) (F G : Field) (V1 V2 : string) :
  heap w !! d = Some R → F ≠ G →
  let w1 := exec (dispatch (InputChange d F V1)) w in
  ∃ r1, last (onChange_calls w1) = Some r1 ∧
        last_call (exec (dispatch (InputChange r1 G V2)) w1)
        = Some (<[key G := VStr V2]> (<[key F := VStr V1]> R)) ∧
        <[key G := VStr V2]> (<[key F := VStr V1]> R)
        = <[key F := VStr V1]> (<[key G := VStr V2]> R) ∧
        last_call (exec (dispatch (InputChange d G V2)) w1)
        = Some (<[key G := VStr V2]> R).
Proof.
  intros HR HFG w1. subst w1. cbn [dispatch]. rewrite exec_handleChange.
  rewrite (spread_lookup _ _ _ HR).
  exists (fresh (dom (heap w))). simpl. split; [apply last_snoc|].
  rewrite !exec_handleChange, !last_call_alloc. simpl.
  split; [|split].
  - by rewrite (spread_lookup _ _ (<[key F := VStr V1]> R))
      by apply lookup_insert_eq.
  - apply insert_insert_ne. intros Hk. by apply HFG, key_inj.
  - rewrite (spread_lookup _ _ R); [done|].
    rewrite lookup_insert_ne; [done|]. by apply (fresh_neq_allocated _ _ R).
Qed.

Lemma edits_of_two_fields_witness :
  heap world_ab !! 1%positive = Some record_ab ∧ name ≠ email ∧
  ∃ r1, last (onChange_calls (exec (dispatch (InputChange 1%positive name "Ann"))
                                world_ab)) = Some r1 ∧
        last_call (exec (dispatch (InputChange r1 email "ann@b.com"))
                     (exec (dispatch (InputChange 1%positive name "Ann")) world_ab))
        = Some (<[key email := VStr "ann@b.com"]> (<[key name := VStr "Ann"]> record_ab)).
Proof.
  assert (H : heap world_ab !! 1%positive = Some record_ab) by reflexivity.
  assert (Hne : name ≠ email) by discriminate.
  split; [exact H|]. split; [exact Hne|].
  destruct (edits_of_two_fields world_ab 1%positive record_ab name email
              "Ann" "ann@b.com" H Hne) as (r1 & Hlast & Hcall & _).
  exists r1. exact (conj Hlast Hcall).
Defined.

(** X16: picking only starts reads.  Through any sequence of picks and
    upload clicks the heap, the log of calls and the preview are as they
    were, and the reads in flight grow by one read per pick that has a file,
    in order, each with the first file of the pick and the props of that
    moment. *)
Theorem picks_only_start_reads evs w :
  Forall (λ ev, is_picking ev = true) evs →
  let w' := exec (run evs) w in
  heap w' = heap w ∧ onChange_calls w' = onChange_calls w ∧
  avatarPreview w' = avatarPreview w ∧
  pending w' = pending w ++ started_reads evs.
Proof.
  intros Hevs w'. subst w'. revert w.
  induction Hevs as [|ev evs Hev _ IH]; intros w.
  - by rewrite exec_run_nil, app_nil_r.
  - rewrite exec_run_cons.
    destruct (IH (exec (dispatch ev) w)) as (-> & -> & -> & ->).
    clear IH. dispatch_cases ev w; simpl; rewrite ?app_nil_r, <- ?app_assoc; done.
Qed.

Lemma picks_only_start_reads_witness :
  Forall (λ ev, is_picking ev = true)
    [UploadClick; FileChange 1%positive (Value [png; jpg]);
     FileChange 1%positive Null] ∧
  pending (exec (run [UploadClick; FileChange 1%positive (Value [png; jpg]);
                      FileChange 1%positive Null]) world_ab)
  = pending world_ab ++ [{| reader_file := png; closure_data := 1%positive |}].
Proof.
  assert (H : Forall (λ ev, is_picking ev = true)
                [UploadClick; FileChange 1%positive (Value [png; jpg]);
                 FileChange 1%positive Null])
    by (repeat constructor).
  exact (conj H
    (proj2 (proj2 (proj2 (picks_only_start_reads _ world_ab H))))).
Defined.

(** Once attached, the file input stays attached. *)
Lemma run_keeps_input_attached evs w :
  is_Some (fileInputRef w) → is_Some (fileInputRef (exec (run evs) w)).
Proof.
  revert w. induction evs as [|ev evs IH]; intros w Hw; [done|].
  rewrite exec_run_cons. apply IH. clear IH. destruct Hw as [el Hel].
  dispatch_cases ev w; simpl; rewrite ?Hel; by eexists.
Qed.

(** X17: the file input follows the selection and is emptied by the remove
    button.  With the input attached: after a pick it holds the fake path of
    the first picked file (the empty string when no file was picked), and
    after any sequence of events that ends with a click on the remove button
    its value is empty, whatever was picked before. *)
Theorem file_input_follows_selection w el :
  fileInputRef w = Some el →
  (∀ d files,
      fileInputRef (exec (dispatch (FileChange d files)) w)
      = Some {| input_value := selection_value files |}) ∧
  (∀ evs d,
      fileInputRef (exec (run (evs ++ [RemoveClick d])) w)
      = Some {| input_value := "" |}).
Proof.
  intros Hel. split.
  - intros d files. rewrite exec_FileChange. simpl. by rewrite Hel.
  - intros evs d. rewrite exec_run_app, exec_run_cons, exec_run_nil.
    cbn [dispatch]. rewrite exec_handleRemoveAvatar. simpl.
    destruct (run_keeps_input_attached evs w) as [el' ->]; [by eexists | done].
Qed.

Lemma file_input_follows_selection_witness :
  fileInputRef world_ab = Some {| input_value := "" |} ∧
  fileInputRef (exec (dispatch (FileChange 1%positive (Value [png]))) world_ab)
  = Some {| input_value := fakepath png |} ∧
  fileInputRef (exec (run ([FileChange 1%positive (Value [png]);
                            LoadEnd 0 (ReadDone png_url)]
                           ++ [RemoveClick 2%positive])) world_ab)
  = Some {| input_value := "" |}.
Proof.
  assert (H : fileInputRef world_ab = Some {| input_value := "" |}) by reflexivity.
  exact (conj H
    (conj (proj1 (file_input_follows_selection world_ab _ H) 1%positive (Value [png]))
          (proj2 (file_input_follows_selection world_ab _ H)
             [FileChange 1%positive (Value [png]); LoadEnd 0 (ReadDone png_url)]
             2%positive))).
Defined.

End PersonalInfoFormMore.
